(** * Market-data collector: a shallow embedding of [main.cpp]

    The program spawns five worker threads.  Each worker draws two random
    doubles, wraps them in a [BondMarketData] and an [InterestRateMarketData]
    object and, holding one shared mutex, appends both to a
    [DataProcessor<MarketData>].  The driver joins the workers, calls
    [processAll] and returns 0.

    - Part 1 embeds the class hierarchy and the [DataProcessor<T>] template
      as pure functions over an explicit trace of observable events.
    - Part 2 embeds [simulateMarketData] and [main] as an interleaving
      transition system with one program counter per thread.
    - Part 3 proves what [processAll] does on a given collector.
    - Part 4 proves, by an invariant of the transition system, what the
      collector looks like when the workers have been joined. *)

From Stdlib Require Import Floats.PrimFloat.
From stdpp Require Import base tactics option numbers list strings relations.

Set Default Proof Using "Type".

(** ** Part 1: streams, exceptions and the [MarketData] classes *)

(** C++ [double] is IEEE binary64, which is Rocq's primitive [float]. *)
Abbreviation double := PrimFloat.float.

(** The two standard streams the program writes to. *)
Inductive stream := cout | cerr.

(** One [operator<<] insertion.  [Endl] is [std::endl]. *)
Inductive item :=
| Str (s : string)
| Dbl (d : double)
| Endl.

(** What a [throw] can carry, as far as the handler of [processAll] can
    tell: [StdException what] is an exception object that
    [catch (const std::exception&)] matches (its type is [std::exception]
    or has it as a public, unambiguous base class), with its [what()] text;
    [OtherThrow] is anything the handler does not match (an [int], a class
    unrelated to [std::exception], a class deriving from it privately). *)
Inductive thrown :=
| StdException (what : string)
| OtherThrow.

(** Observable events, in program order. [Call x] records that [process()]
    was entered on element [x]; [Put s i] is one insertion into stream [s]. *)
Inductive event (T : Type) :=
| Call (x : T)
| Put (s : stream) (i : item).
Arguments Call {T} x.
Arguments Put {T} s i.

(** The result of running a [void process()] member: the object afterwards
    (the member is not [const]), what it inserted into the streams, and the
    exception that left it, if any. *)
Record outcome (T : Type) := Outcome {
  self : T;
  written : list (stream * item);
  raised : option thrown
}.
Arguments Outcome {T} self written raised.
Arguments self {T} o.
Arguments written {T} o.
Arguments raised {T} o.

(** [virtual void process() = 0]: the interface [DataProcessor<T>] needs
    from its element type. *)
Class Processable (T : Type) := process : T → outcome T.

Inductive MarketData :=
| BondMarketData (bondPrice : double)
| InterestRateMarketData (interestRate : double).

(** [std::cout << a << b << std::endl]. *)
Definition cout_line (label : string) (value : double) : list (stream * item) :=
  [(cout, Str label); (cout, Dbl value); (cout, Endl)].

Definition BondMarketData_process (bondPrice : double) : outcome MarketData :=
  Outcome (BondMarketData bondPrice)
          (cout_line "Processing Bond Market Data: Price = " bondPrice)
          None.

Definition InterestRateMarketData_process (interestRate : double) : outcome MarketData :=
  Outcome (InterestRateMarketData interestRate)
          (cout_line "Processing Interest Rate Market Data: Rate = " interestRate)
          None.

(** Dynamic dispatch on the two subclasses of the repository. *)
#[export] Instance MarketData_process : Processable MarketData := λ data,
  match data with
  | BondMarketData bondPrice => BondMarketData_process bondPrice
  | InterestRateMarketData interestRate => InterestRateMarketData_process interestRate
  end.

(** The character [std::endl] writes. *)
Definition newline : string := String (Ascii.ascii_of_nat 10) EmptyString.

(** Text of a sequence of insertions, for a given rendering of doubles
    (the formatting of [operator<<(double)] belongs to the C++ library). *)
Definition render_item (fmt : double → string) (i : item) : string :=
  match i with
  | Str s => s
  | Dbl d => fmt d
  | Endl => newline
  end.

Fixpoint render (fmt : double → string) (l : list item) : string :=
  match l with
  | [] => EmptyString
  | i :: l => render_item fmt i +:+ render fmt l
  end.

(** ** The [DataProcessor<T>] template *)

Section DataProcessor.
Context {T : Type} {process_T : Processable T}.

Record DataProcessor := mkDataProcessor { marketDataList : list T }.

(** A default-constructed processor. *)
Definition new_processor : DataProcessor := mkDataProcessor [].

(** [marketDataList.push_back(std::move(data))]. *)
Definition addData (p : DataProcessor) (data : T) : DataProcessor :=
  mkDataProcessor (marketDataList p ++ [data]).

Definition puts (w : list (stream * item)) : list (event T) :=
  map (λ si, Put si.1 si.2) w.

(** The handler body of [catch (const std::exception& e)]. *)
Definition log_exception (what : string) : list (event T) :=
  [Put cerr (Str "Exception while processing market data: ");
   Put cerr (Str what);
   Put cerr Endl].

(** Result of the range-for: the elements afterwards, the events in order
    and the exception that escaped the loop, if any. *)
Record loop_result := LoopResult {
  elements : list T;
  events : list (event T);
  escaped : option thrown
}.

(** The loop of [processAll], from the current iterator position on. An
    exception the handler does not match leaves the loop at once. *)
Fixpoint processAll_from (l : list T) : loop_result :=
  match l with
  | [] => LoopResult [] [] None
  | data :: rest =>
      let o := process data in
      let body := Call data :: puts (written o) in
      match raised o with
      | None =>
          let r := processAll_from rest in
          LoopResult (self o :: elements r) (body ++ events r) (escaped r)
      | Some (StdException what) =>
          let r := processAll_from rest in
          LoopResult (self o :: elements r)
                     (body ++ log_exception what ++ events r) (escaped r)
      | Some OtherThrow =>
          LoopResult (self o :: rest) body (Some OtherThrow)
      end
  end.

Definition processAll (p : DataProcessor) : DataProcessor * list (event T) * option thrown :=
  let r := processAll_from (marketDataList p) in
  (mkDataProcessor (elements r), events r, escaped r).

(** Projections of a trace. *)
Definition calls (tr : list (event T)) : list T :=
  omap (λ e, match e with Call x => Some x | Put _ _ => None end) tr.

Definition output (s : stream) (tr : list (event T)) : list item :=
  omap (λ e, match e with
             | Put cout i => if s is cout then Some i else None
             | Put cerr i => if s is cerr then Some i else None
             | Call _ => None
             end) tr.
End DataProcessor.
Arguments DataProcessor T : clear implicits.
Arguments loop_result T : clear implicits.

(** A third element class, used to exercise the handler of [processAll]:
    [Quiet] returns normally, [Faulty what] throws a [std::runtime_error]
    with that text, [Foreign] throws something the handler does not match
    (an [int], say). *)
Inductive Probe := Quiet | Faulty (what : string) | Foreign.

#[export] Instance Probe_process : Processable Probe := λ x,
  match x with
  | Quiet => Outcome Quiet [(cout, Str "quiet"); (cout, Endl)] None
  | Faulty what => Outcome (Faulty what) [] (Some (StdException what))
  | Foreign => Outcome Foreign [] (Some OtherThrow)
  end.

(** ** What the loop of [processAll] is meant to do *)

Section DataProcessorSpec.
Context {T : Type} {process_T : Processable T}.

(** The exception of [data] gets past [catch (const std::exception&)]. *)
Definition uncaught (data : T) : Prop := raised (process data) = Some OtherThrow.

(** What the handler prints for an outcome. *)
Definition handler (o : outcome T) : list (event T) :=
  match raised o with
  | Some (StdException what) => log_exception what
  | _ => []
  end.

(** One full iteration of the range-for on [data]. *)
Definition iteration (data : T) : list (event T) :=
  Call data :: puts (written (process data)) ++ handler (process data).

End DataProcessorSpec.

(** The output line the specification documents for an element, as the
    insertions that make it up. *)
Definition documented_line (data : MarketData) : list item :=
  match data with
  | BondMarketData X => [Str "Processing Bond Market Data: Price = "; Dbl X; Endl]
  | InterestRateMarketData Y => [Str "Processing Interest Rate Market Data: Rate = "; Dbl Y; Endl]
  end.

(** ** Part 2: [simulateMarketData] and [main] as a transition system *)

(** Control point of one worker thread inside [simulateMarketData], with
    the [unique_ptr] locals that are still live there (a moved-from pointer
    is gone).  The constructors follow source lines 68 to 76. *)
Inductive worker :=
| AtDrawBond
| AtDrawRate (bondData : MarketData)
| AtLock (bondData interestRateData : MarketData)
| AtAddBond (bondData interestRateData : MarketData)
| AtAddRate (interestRateData : MarketData)
| AtUnlock
| Finished.

(** Control point of [main].  [Spawning i] and [Joining j] are the two
    loops; [Terminated] is [std::terminate] after an uncaught exception. *)
Inductive driver :=
| Spawning (i : nat)
| Joining (j : nat)
| Consuming
| Exited (code : Z)
| Terminated.

(** The whole program.  [inserted] is a ghost log: who appended what, in
    the order of the [push_back]s.  No step reads it. *)
Record state := State {
  main_pc : driver;
  threads : list worker;
  mtx : option nat;
  processor : DataProcessor MarketData;
  trace : list (event MarketData);
  inserted : list (nat * MarketData)
}.

Definition initial : state :=
  State (Spawning 0) [] None new_processor [] [].

(** A scheduler choice: the driver moves, or worker [t] moves. [drawn] is
    what [dis(gen)] returns if the worker is at a draw. *)
Inductive action :=
| Main
| Work (t : nat) (drawn : double).

(** Lines 68 to 76 of [simulateMarketData], one statement per step.
    [lock_guard]'s constructor blocks while the mutex is taken. *)
Definition simulateMarketData_step (t : nat) (drawn : double) (s : state) : option state :=
  w ← threads s !! t;
  match w with
  | AtDrawBond =>
      Some (State (main_pc s) (<[t := AtDrawRate (BondMarketData drawn)]> (threads s))
                  (mtx s) (processor s) (trace s) (inserted s))
  | AtDrawRate bondData =>
      Some (State (main_pc s)
                  (<[t := AtLock bondData (InterestRateMarketData drawn)]> (threads s))
                  (mtx s) (processor s) (trace s) (inserted s))
  | AtLock bondData interestRateData =>
      match mtx s with
      | None =>
          Some (State (main_pc s) (<[t := AtAddBond bondData interestRateData]> (threads s))
                      (Some t) (processor s) (trace s) (inserted s))
      | Some _ => None
      end
  | AtAddBond bondData interestRateData =>
      Some (State (main_pc s) (<[t := AtAddRate interestRateData]> (threads s))
                  (mtx s) (addData (processor s) bondData) (trace s)
                  (inserted s ++ [(t, bondData)]))
  | AtAddRate interestRateData =>
      Some (State (main_pc s) (<[t := AtUnlock]> (threads s))
                  (mtx s) (addData (processor s) interestRateData) (trace s)
                  (inserted s ++ [(t, interestRateData)]))
  | AtUnlock =>
      Some (State (main_pc s) (<[t := Finished]> (threads s))
                  None (processor s) (trace s) (inserted s))
  | Finished => None
  end.

Section Program.
(** [main] calls [process()] through the [MarketData] interface, so the
    driver is embedded over any implementation of it. The repository's
    own is [MarketData_process]. *)
Context (P : Processable MarketData).

(** Lines 81 to 98 of [main]. [emplace_back] starts the new thread at
    once; [join] blocks until its thread has finished. Resource failures
    (a [std::system_error] from [emplace_back], a failed allocation) are
    not steps of this system: in the program they end the run in
    [std::terminate] on the spot, so they add no state at or after the
    join loop and no way to go on from any state. *)
Definition main_step (s : state) : option state :=
  match main_pc s with
  | Spawning i =>
      if decide (i < 5)
      then Some (State (Spawning (S i)) (threads s ++ [AtDrawBond])
                       (mtx s) (processor s) (trace s) (inserted s))
      else Some (State (Joining 0) (threads s)
                       (mtx s) (processor s) (trace s) (inserted s))
  | Joining j =>
      match threads s !! j with
      | Some Finished =>
          Some (State (Joining (S j)) (threads s)
                      (mtx s) (processor s) (trace s) (inserted s))
      | Some _ => None
      | None =>
          Some (State Consuming (threads s)
                      (mtx s) (processor s) (trace s) (inserted s))
      end
  | Consuming =>
      let '(p, evs, esc) := @processAll _ P (processor s) in
      Some (State (if esc is None then Exited 0 else Terminated) (threads s)
                  (mtx s) p (trace s ++ evs) (inserted s))
  | Exited _ | Terminated => None
  end.

Definition step_fn (a : action) (s : state) : option state :=
  match a with
  | Main => main_step s
  | Work t drawn => simulateMarketData_step t drawn s
  end.

(** One step of some thread, under any scheduling and any draw. *)
Definition step (s s' : state) : Prop := ∃ a, step_fn a s = Some s'.

Definition reachable (s : state) : Prop := rtc step initial s.

(** Running a given schedule. *)
Fixpoint run (sched : list action) (s : state) : option state :=
  match sched with
  | [] => Some s
  | a :: sched => s' ← step_fn a s; run sched s'
  end.
End Program.

(** A schedule that lets every worker run to its end as soon as it is
    spawned, and one where all workers draw first and then queue up for the
    mutex in the order 3, 0, 4, 1, 2. *)
Definition whole_worker (t : nat) (x y : double) : list action :=
  [Work t x; Work t y; Work t 0; Work t 0; Work t 0; Work t 0].

Definition sequential_schedule : list action :=
  [Main] ++ whole_worker 0 10.5 1.25 ++ [Main] ++ whole_worker 1 99 2 ++
  [Main] ++ whole_worker 2 57.75 3.5 ++ [Main] ++ whole_worker 3 1 100 ++
  [Main] ++ whole_worker 4 42 4.75 ++ [Main] ++ repeat Main 6.

Definition critical_section (t : nat) : list action :=
  [Work t 0; Work t 0; Work t 0; Work t 0].

Definition contended_schedule : list action :=
  repeat Main 6 ++
  [Work 0 10.5; Work 1 99; Work 2 57.75; Work 3 1; Work 4 42;
   Work 4 4.75; Work 3 100; Work 2 3.5; Work 1 2; Work 0 1.25] ++
  critical_section 3 ++ critical_section 0 ++ [Main] ++ critical_section 4 ++
  critical_section 1 ++ [Main] ++ critical_section 2 ++ repeat Main 4.

(** ** Invariants of the transition system *)

(** Lines 74 to 76: the scope of the [lock_guard]. *)
Definition in_critical_section (w : worker) : Prop :=
  match w with
  | AtAddBond _ _ | AtAddRate _ | AtUnlock => True
  | _ => False
  end.

Definition is_bond (data : MarketData) : Prop :=
  match data with BondMarketData _ => True | InterestRateMarketData _ => False end.

Definition is_rate (data : MarketData) : Prop :=
  match data with BondMarketData _ => False | InterestRateMarketData _ => True end.

(** The dynamic types behind a worker's two [unique_ptr]s. *)
Definition locals_ok (w : worker) : Prop :=
  match w with
  | AtDrawRate bondData => is_bond bondData
  | AtLock bondData interestRateData
  | AtAddBond bondData interestRateData => is_bond bondData ∧ is_rate interestRateData
  | AtAddRate interestRateData => is_rate interestRateData
  | _ => True
  end.

(** Worker [t] appended a bond and then a rate, next to each other, and
    nothing else. *)
Definition adjacent_pair (t : nat) (log : list (nat * MarketData)) : Prop :=
  ∃ pre b r post,
    log = pre ++ [(t, BondMarketData b); (t, InterestRateMarketData r)] ++ post ∧
    (t ∉ pre.*1) ∧ (t ∉ post.*1).

(** What worker [t] has appended so far, by its control point. *)
Definition contribution (t : nat) (w : option worker) (log : list (nat * MarketData)) : Prop :=
  match w with
  | Some (AtAddRate _) => ∃ pre b, log = pre ++ [(t, BondMarketData b)] ∧ t ∉ pre.*1
  | Some AtUnlock | Some Finished => adjacent_pair t log
  | _ => t ∉ log.*1
  end.

(** Where the driver is against what it has spawned and joined. *)
Definition driver_ok (pc : driver) (ths : list worker) : Prop :=
  match pc with
  | Spawning i => length ths = i ∧ i ≤ 5
  | Joining j => length ths = 5 ∧ ∀ k, k < j → ths !! k = Some Finished
  | Consuming | Exited _ | Terminated =>
      length ths = 5 ∧ ∀ k, k < 5 → ths !! k = Some Finished
  end.

(** The join barrier is behind the driver. *)
Definition joined (pc : driver) : Prop :=
  match pc with
  | Spawning _ | Joining _ => False
  | Consuming | Exited _ | Terminated => True
  end.

(** [processAll] has not been called yet. *)
Definition before_consumption (pc : driver) : Prop :=
  match pc with
  | Exited _ | Terminated => False
  | _ => True
  end.

Record invariant (s : state) : Prop := Invariant {
  inv_driver : driver_ok (main_pc s) (threads s);
  inv_locals : ∀ t w, threads s !! t = Some w → locals_ok w;
  inv_mutex : ∀ t w, threads s !! t = Some w → in_critical_section w → mtx s = Some t;
  inv_holder : ∀ t, mtx s = Some t →
               ∃ w, threads s !! t = Some w ∧ in_critical_section w;
  inv_log : before_consumption (main_pc s) →
            (inserted s).*2 = marketDataList (processor s);
  inv_contribution : ∀ t, contribution t (threads s !! t) (inserted s)
}.

(** Where the contended schedule ends: at the join barrier. *)
Definition contended_final : state :=
  Eval vm_compute in default initial (run MarketData_process contended_schedule initial).

(** The same schedule stopped after worker 3 has left the critical section
    and worker 0 is between its two [push_back]s. *)
Definition contended_midway : state :=
  Eval vm_compute in
    default initial (run MarketData_process (take 22 contended_schedule) initial).

(** The worker that appended the element at position [i]. *)
Definition inserted_by (s : state) (i : nat) : option nat := (inserted s).*1 !! i.

(** An implementation of the interface whose bonds always fail with a
    [std::runtime_error]; it stands for per-element processing failures. *)
Definition failing_bonds : Processable MarketData := λ data,
  match data with
  | BondMarketData bondPrice =>
      Outcome (BondMarketData bondPrice) [] (Some (StdException "bad bond"))
  | InterestRateMarketData interestRate => InterestRateMarketData_process interestRate
  end.

(** The contended schedule run to the end of [main] when every bond fails. *)
Definition failing_final : state :=
  Eval vm_compute in
    default initial (run failing_bonds (contended_schedule ++ [Main]) initial).

(** Steps a thread still has to take: a bound on the length of any run. *)
Definition worker_fuel (w : worker) : nat :=
  match w with
  | AtDrawBond => 6
  | AtDrawRate _ => 5
  | AtLock _ _ => 4
  | AtAddBond _ _ => 3
  | AtAddRate _ => 2
  | AtUnlock => 1
  | Finished => 0
  end.

Definition driver_fuel (pc : driver) : nat :=
  match pc with
  | Spawning i => 7 * (5 - i) + 8
  | Joining j => 2 + (5 - j)
  | Consuming => 1
  | Exited _ | Terminated => 0
  end.

Definition fuel (s : state) : nat :=
  driver_fuel (main_pc s) + sum_list_with worker_fuel (threads s).

(** ** The shape of the log and of the output *)

(** What one worker [t] appends in its critical section, given its draws. *)
Definition pair_entries (e : nat * double * double) : list (nat * MarketData) :=
  [(e.1.1, BondMarketData e.1.2); (e.1.1, InterestRateMarketData e.2)].

Definition pairs (ps : list (nat * double * double)) : list (nat * MarketData) :=
  ps ≫= pair_entries.

(** The worker that is between its two [push_back]s, if there is one:
    it holds the mutex and stands at line 75. *)
Definition half_done (ths : list worker) (m : option nat) : option nat :=
  t ← m;
  match ths !! t with
  | Some (AtAddRate _) => Some t
  | _ => None
  end.

(** The log is a sequence of whole pairs, plus the bond of the worker that
    is between its two [push_back]s. *)
Definition log_shape (ths : list worker) (m : option nat)
    (log : list (nat * MarketData)) : Prop :=
  match half_done ths m with
  | Some t => ∃ ps b, log = pairs ps ++ [(t, BondMarketData b)]
  | None => ∃ ps, log = pairs ps
  end.

(** What the two lines of one pair look like on [cout]. *)
Definition pair_lines (e : nat * double * double) : list item :=
  documented_line (BondMarketData e.1.2) ++
  documented_line (InterestRateMarketData e.2).

(** The number of [std::endl] insertions in a sequence of insertions. It
    is the number of text lines when no inserted string holds a newline of
    its own, as in the output of the two [process()] members. *)
Definition is_endl (i : item) : bool :=
  match i with Endl => true | _ => false end.

Definition line_count (l : list item) : nat := length (filter is_endl l).

(** For the repository's classes, along the steps of this system: nothing
    is written before [processAll], no exception escapes [processAll], and
    when [main] has returned the trace is that of one pass over the
    collector. *)
Definition output_ok (s : state) : Prop :=
  match main_pc s with
  | Exited code =>
      code = 0%Z ∧
      trace s = marketDataList (processor s) ≫= iteration ∧
      (inserted s).*2 = marketDataList (processor s)
  | Terminated => False
  | _ => trace s = []
  end.

(** What the statement that action [a] runs next hands to [addData]: the
    worker's bond at line 74, its interest rate at line 75, nothing at any
    other statement of a worker or of [main]. *)
Definition appended (s : state) (a : action) : list MarketData :=
  match a with
  | Main => []
  | Work t _ =>
      match threads s !! t with
      | Some (AtAddBond bondData _) => [bondData]
      | Some (AtAddRate interestRateData) => [interestRateData]
      | _ => []
      end
  end.

(** The contended schedule one step after [contended_midway] (worker 0 has
    made its second [push_back]) and after the last step of [main]. *)
Definition contended_midway_next : state :=
  Eval vm_compute in
    default initial (run MarketData_process (take 23 contended_schedule) initial).

Definition contended_exited : state :=
  Eval vm_compute in
    default initial (run MarketData_process (contended_schedule ++ [Main]) initial).

(** ** Part 3: properties of [DataProcessor<T>] *)

Section DataProcessorFacts.
Context {T : Type} {process_T : Processable T}.
Implicit Types (l : list T) (p : DataProcessor T) (tr : list (event T)).






(** When every exception is one the handler matches, the loop is the
    plain left-to-right traversal. *)
Lemma processAll_from_caught l :
  Forall (λ x, ¬ uncaught x) l →
  processAll_from l = LoopResult (self ∘ process <$> l) (l ≫= iteration) None.
Proof.
  induction 1 as [|x l Hx _ IH]; [done|].
  cbn [processAll_from]. unfold uncaught in Hx.
  rewrite IH. cbn [elements events escaped].
  rewrite fmap_cons, bind_cons. unfold iteration, handler.
  destruct (raised (process x)) as [[what|]|]; cbn [compose app].
  - by rewrite <-app_assoc.
  - done.
  - by rewrite app_nil_r.
Qed.


Lemma marketDataList_addData p data :
  marketDataList (addData p data) = marketDataList p ++ [data].
Proof. done. Qed.

Lemma marketDataList_foldl_addData p ds :
  marketDataList (foldl addData p ds) = marketDataList p ++ ds.
Proof.
  revert p. induction ds as [|d ds IH]; intros p; cbn [foldl].
  - by rewrite app_nil_r.
  - rewrite IH, marketDataList_addData, <-app_assoc. done.
Qed.

End DataProcessorFacts.

(** *** The handler of [processAll] *)

Example processAll_demo :
  processAll (addData (addData new_processor (BondMarketData 42.5)) (InterestRateMarketData 3))
  = (mkDataProcessor [BondMarketData 42.5; InterestRateMarketData 3],
     [Call (BondMarketData 42.5);
      Put cout (Str "Processing Bond Market Data: Price = "); Put cout (Dbl 42.5); Put cout Endl;
      Call (InterestRateMarketData 3);
      Put cout (Str "Processing Interest Rate Market Data: Rate = "); Put cout (Dbl 3); Put cout Endl],
     None).
Proof. reflexivity. Qed.


Example processAll_probe_caught :
  processAll (mkDataProcessor [Faulty "boom"; Quiet])
  = (mkDataProcessor [Faulty "boom"; Quiet],
     [Call (Faulty "boom");
      Put cerr (Str "Exception while processing market data: ");
      Put cerr (Str "boom"); Put cerr Endl;
      Call Quiet; Put cout (Str "quiet"); Put cout Endl],
     None).
Proof. reflexivity. Qed.

Example processAll_probe_uncaught :
  processAll (mkDataProcessor [Foreign; Quiet])
  = (mkDataProcessor [Foreign; Quiet], [Call Foreign], Some OtherThrow).
Proof. reflexivity. Qed.




(** *** The two classes of the repository *)

Lemma MarketData_process_returns (data : MarketData) :
  raised (process data) = None ∧ self (process data) = data.
Proof. by destruct data. Qed.

Lemma MarketData_caught (l : list MarketData) : Forall (λ x, ¬ uncaught x) l.
Proof.
  apply Forall_forall. intros data _. unfold uncaught.
  by rewrite (proj1 (MarketData_process_returns data)).
Qed.

Lemma MarketData_iteration (data : MarketData) :
  iteration data = Call data :: map (Put cout) (documented_line data).
Proof. by destruct data. Qed.

Lemma processAll_MarketData (p : DataProcessor MarketData) :
  processAll p = (p, marketDataList p ≫= iteration, None).
Proof.
  unfold processAll. rewrite (processAll_from_caught _ (MarketData_caught _)).
  cbn [elements events escaped]. destruct p as [l]. cbn [marketDataList].
  do 3 f_equal. induction l as [|data l IH]; [done|].
  rewrite fmap_cons, IH. cbn [compose].
  by rewrite (proj2 (MarketData_process_returns data)).
Qed.

Lemma output_iterations (s : stream) (l : list MarketData) :
  output s (l ≫= iteration)
  = if s is cout then l ≫= documented_line else [].
Proof.
  induction l as [|data l IH]; [by destruct s|].
  rewrite !bind_cons. unfold output in *. rewrite omap_app, IH.
  rewrite MarketData_iteration. by destruct s, data.
Qed.


(** C6: [processAll] leaves the collector as it found it, and a second
    call right after the first produces the same events, hence the same
    text on either stream under any formatting of doubles. *)
Theorem processAll_repeatable (p : DataProcessor MarketData) :
  (processAll p).1.1 = p ∧
  (processAll (processAll p).1.1).1.1 = p ∧
  (processAll (processAll p).1.1).1.2 = (processAll p).1.2 ∧
  (∀ fmt s, render fmt (output s (processAll (processAll p).1.1).1.2)
            = render fmt (output s (processAll p).1.2)).
Proof. by rewrite !processAll_MarketData. Qed.

(** C8: each processed element contributes exactly its documented line to
    standard output and nothing to standard error; as text, the line is the
    label, the stored value and a newline. *)
Theorem processAll_prints_documented_lines (p : DataProcessor MarketData) :
  output cout (processAll p).1.2 = marketDataList p ≫= documented_line ∧
  output cerr (processAll p).1.2 = [] ∧
  (∀ X, written (process (BondMarketData X))
        = map (pair cout) (documented_line (BondMarketData X))) ∧
  (∀ Y, written (process (InterestRateMarketData Y))
        = map (pair cout) (documented_line (InterestRateMarketData Y))) ∧
  (∀ fmt X, render fmt (documented_line (BondMarketData X))
            = "Processing Bond Market Data: Price = " +:+ fmt X +:+ newline) ∧
  (∀ fmt Y, render fmt (documented_line (InterestRateMarketData Y))
            = "Processing Interest Rate Market Data: Rate = " +:+ fmt Y +:+ newline).
Proof.
  rewrite processAll_MarketData. cbn [fst snd].
  rewrite !output_iterations. done.
Qed.

(** ** Part 4: properties of the running program *)

(** *** Bookkeeping on the thread table and the ghost log *)

Lemma lookup_thread_update (ths : list worker) t w w' t' :
  ths !! t = Some w →
  <[t := w']> ths !! t' = if decide (t' = t) then Some w' else ths !! t'.
Proof.
  intros Ht. destruct (decide (t' = t)) as [->|Hne].
  - apply list_lookup_insert_eq. by eapply lookup_lt_Some.
  - by apply list_lookup_insert_ne.
Qed.

Lemma is_bond_inv data : is_bond data → ∃ b, data = BondMarketData b.
Proof. destruct data; [eauto|done]. Qed.

Lemma is_rate_inv data : is_rate data → ∃ r, data = InterestRateMarketData r.
Proof. destruct data; [done|eauto]. Qed.

Lemma not_in_log_snoc t t' data (log : list (nat * MarketData)) :
  t ≠ t' → t' ∉ log.*1 → t' ∉ (log ++ [(t, data)]).*1.
Proof.
  intros Hne Hlog. rewrite fmap_app, not_elem_of_app. split; [done|].
  cbn. rewrite list_elem_of_singleton. congruence.
Qed.

Lemma adjacent_pair_snoc t t' data log :
  t ≠ t' → adjacent_pair t' log → adjacent_pair t' (log ++ [(t, data)]).
Proof.
  intros Hne (pre & b & r & post & -> & Hpre & Hpost).
  exists pre, b, r, (post ++ [(t, data)]). split_and!.
  - by rewrite <-!app_assoc.
  - done.
  - by apply not_in_log_snoc.
Qed.

(** Another worker's [push_back] does not disturb what [t'] has appended,
    unless [t'] is between its own two [push_back]s. *)
Lemma contribution_snoc t t' data w log :
  t ≠ t' →
  (∀ r, w ≠ Some (AtAddRate r)) →
  contribution t' w log → contribution t' w (log ++ [(t, data)]).
Proof.
  intros Hne Hw. destruct w as [[]|]; cbn;
    eauto using not_in_log_snoc, adjacent_pair_snoc.
  by destruct (Hw interestRateData).
Qed.

Lemma driver_ok_update pc ths t w w' :
  ths !! t = Some w → w ≠ Finished →
  driver_ok pc ths → driver_ok pc (<[t := w']> ths).
Proof.
  intros Ht Hw.
  assert (∀ n, (∀ k, k < n → ths !! k = Some Finished) →
               ∀ k, k < n → <[t := w']> ths !! k = Some Finished) as Hkeep.
  { intros n Hn k Hk. rewrite (lookup_thread_update _ _ _ _ _ Ht).
    case_decide as Hkt; [|by apply Hn].
    subst k. specialize (Hn t Hk). congruence. }
  destruct pc; cbn; rewrite length_insert; intros [??]; split; eauto.
Qed.

Lemma invariant_initial : invariant initial.
Proof.
  split; cbn; try done.
  - lia.
  - intros t. apply not_elem_of_nil.
Qed.

(** *** Every step keeps the invariant *)

(** Two workers inside the [lock_guard] scope are the same worker. *)
Lemma critical_section_exclusive (ths : list worker) m t t' w w' :
  (∀ t w, ths !! t = Some w → in_critical_section w → m = Some t) →
  ths !! t = Some w → in_critical_section w →
  ths !! t' = Some w' → in_critical_section w' →
  t = t'.
Proof.
  intros Hm Ht Hw Ht' Hw'.
  pose proof (Hm _ _ Ht Hw). pose proof (Hm _ _ Ht' Hw'). congruence.
Qed.

Lemma simulateMarketData_step_invariant t drawn s s' :
  invariant s → simulateMarketData_step t drawn s = Some s' → invariant s'.
Proof.
  intros [Hd Hl Hm Hh Hlog Hc] Hstep.
  destruct s as [pc ths m p tr log]; cbn in *.
  unfold simulateMarketData_step in Hstep; cbn in Hstep.
  destruct (ths !! t) as [w|] eqn:Ht; [|done]. cbn in Hstep.
  pose proof (Hl t w Ht) as Hlw. pose proof (Hc t) as Hct. rewrite Ht in Hct.
  assert (∀ t' w', t' ≠ t → ths !! t' = Some w' →
                   in_critical_section w → ¬ in_critical_section w') as Hexcl.
  { intros t' w' Hne Ht' Hw Hw'. apply Hne. symmetry.
    eapply critical_section_exclusive; eauto. }
  destruct w; cbn in *; [| |destruct m; [done|]| | | |done]; simplify_eq.
  all: split; cbn.
  all: try (eapply driver_ok_update; [done..|]; done).
  all: try (intros t' w' Hlk; rewrite (lookup_thread_update _ _ _ _ _ Ht) in Hlk;
            case_decide; simplify_eq; cbn in *;
            first [ tauto | by eauto
                  | by (intros Hcs; eapply Hm; [exact Ht|])
                  | by (intros Hcs; specialize (Hm _ _ Hlk Hcs))
                  | by (intros Hcs; exfalso; eapply Hexcl) ]).
  all: try done.
  all: try (intros Hpc; rewrite fmap_app, Hlog by done; done).
  all: try (intros t' Hmt; try destruct (Hh _ Hmt) as (w' & Hw' & Hcs);
            rewrite (lookup_thread_update _ _ _ _ _ Ht);
            case_decide; simplify_eq; cbn in *;
            first [ done | by eexists | by exists w' ]).
  all: intros t'; rewrite (lookup_thread_update _ _ _ _ _ Ht);
       case_decide as Htt; [subst t'; cbn|]; try apply Hc; try done.
  - destruct Hlw as [[b ->]%is_bond_inv _]. by (exists log, b).
  - apply contribution_snoc; [done| |apply Hc].
    intros r Hr. by eapply Hexcl.
  - destruct Hct as (pre & b & -> & Hpre).
    apply is_rate_inv in Hlw as [r ->].
    exists pre, b, r, []. split_and!; [|done|apply not_elem_of_nil].
    by rewrite <-app_assoc.
  - apply contribution_snoc; [done| |apply Hc].
    intros r Hr. by eapply Hexcl.
Qed.

Lemma main_step_invariant P s s' :
  invariant s → main_step P s = Some s' → invariant s'.
Proof.
  intros [Hd Hl Hm Hh Hlog Hc] Hstep.
  destruct s as [pc ths m p tr log]; cbn in *.
  unfold main_step in Hstep; cbn in Hstep.
  destruct pc as [i|j| | |]; cbn in *; [| | |done..].
  - (* the spawn loop *)
    destruct Hd as [Hlen Hi]. case_decide as Hlt; simplify_eq; split; cbn; try done.
    + rewrite length_app. cbn. lia.
    + intros t w [[_ Hw]|[_ <-]]%lookup_snoc_Some; [by eapply Hl|done].
    + intros t w [[_ Hw]|[_ <-]]%lookup_snoc_Some; [by eapply Hm|done].
    + intros t (w & Hw & Hcs)%Hh. exists w. split; [|done].
      by apply lookup_app_l_Some.
    + intros t. specialize (Hc t). rewrite lookup_app.
      destruct (ths !! t) as [w|] eqn:Ht; [done|].
      cbn in Hc. by destruct (t - length ths) as [|[|?]].
    + split; [lia|]. intros k Hk. lia.
  - (* the join loop *)
    destruct Hd as [Hlen Hj].
    destruct (ths !! j) as [w|] eqn:Htj.
    + destruct w; simplify_eq. split; cbn; try done.
      split; [done|]. intros k Hk.
      destruct (decide (k = j)) as [->|]; [done|]. apply Hj. lia.
    + simplify_eq. apply lookup_ge_None in Htj. split; cbn; try done.
      split; [done|]. intros k Hk. apply Hj. lia.
  - (* the call of processAll *)
    simplify_eq. split; cbn; try done; by destruct (escaped _).
Qed.

Lemma step_invariant P s s' : invariant s → step P s s' → invariant s'.
Proof.
  intros Hs [[|t drawn] Ha]; cbn in Ha;
    eauto using main_step_invariant, simulateMarketData_step_invariant.
Qed.

Lemma reachable_invariant P s : reachable P s → invariant s.
Proof.
  unfold reachable. revert s. apply rtc_ind_r.
  - apply invariant_initial.
  - intros s s' _ Hstep IH. by eapply step_invariant.
Qed.

(** A schedule that runs is an execution. *)
Lemma run_steps P sched s s' : run P sched s = Some s' → rtc (step P) s s'.
Proof.
  revert s. induction sched as [|a sched IH]; intros s Hrun; cbn in Hrun.
  - by simplify_eq.
  - destruct (step_fn P a s) as [s1|] eqn:Ha; [|done]. cbn in Hrun.
    eapply rtc_l; [by exists a|]. by apply IH.
Qed.

Lemma run_reachable P sched s : run P sched initial = Some s → reachable P s.
Proof. apply run_steps. Qed.

(** *** Reading positions off the ghost log *)

Lemma adjacent_pair_positions t (log : list (nat * MarketData)) :
  adjacent_pair t log →
  ∃ i b r,
    log !! i = Some (t, BondMarketData b) ∧
    log !! S i = Some (t, InterestRateMarketData r) ∧
    ∀ j data, log !! j = Some (t, data) → j = i ∨ j = S i.
Proof.
  intros (pre & b & r & post & -> & Hpre & Hpost).
  exists (length pre), b, r. split_and!.
  - by rewrite lookup_app_r, Nat.sub_diag by lia.
  - rewrite lookup_app_r by lia. by replace (S (length pre) - length pre) with 1 by lia.
  - intros j data Hj. apply lookup_app_Some in Hj as [Hj|[Hge Hj]].
    { destruct Hpre. apply list_elem_of_fmap. exists (t, data).
      split; [done|]. by eapply list_elem_of_lookup_2. }
    destruct (j - length pre) as [|[|k]] eqn:Hk; [lia|lia|].
    cbn in Hj. destruct Hpost. apply list_elem_of_fmap. exists (t, data).
    split; [done|]. by eapply list_elem_of_lookup_2.
Qed.

Lemma filter_owner_absent t (log : list (nat * MarketData)) :
  t ∉ log.*1 → filter (λ e, e.1 = t) log = [].
Proof.
  induction log as [|e log IH]; [done|].
  rewrite fmap_cons, not_elem_of_cons. intros [Hne Hlog].
  rewrite filter_cons. case_decide; [congruence|]. by apply IH.
Qed.

Lemma adjacent_pair_count t log :
  adjacent_pair t log → length (filter (λ e, e.1 = t) log) = 2.
Proof.
  intros (pre & b & r & post & -> & Hpre & Hpost).
  rewrite !filter_app, (filter_owner_absent _ _ Hpre), (filter_owner_absent _ _ Hpost).
  rewrite !filter_cons, filter_nil. cbn. by rewrite !decide_True.
Qed.

(** A log whose owners are all among the five workers splits into the
    five workers' shares. *)
Lemma log_length_by_owner (log : list (nat * MarketData)) :
  (∀ e, e ∈ log → e.1 < 5) →
  length log
  = length (filter (λ e, e.1 = 0) log) + length (filter (λ e, e.1 = 1) log)
    + length (filter (λ e, e.1 = 2) log) + length (filter (λ e, e.1 = 3) log)
    + length (filter (λ e, e.1 = 4) log).
Proof.
  induction log as [|[t data] log IH]; [done|]. intros Hlog.
  rewrite !filter_cons. cbn [length fst].
  rewrite IH by (intros e He; apply Hlog; by right).
  assert (t < 5) as Ht by (apply (Hlog (t, data)); by left).
  repeat case_decide; cbn [length]; lia.
Qed.

Lemma joined_all_finished s t :
  invariant s → joined (main_pc s) →
  threads s !! t = if decide (t < 5) then Some Finished else None.
Proof.
  intros [Hd _ _ _ _ _] Hj. destruct (main_pc s); try done.
  all: destruct Hd as [Hlen Hfin]; case_decide; [by apply Hfin|];
    apply lookup_ge_None; lia.
Qed.

Lemma joined_contribution s t :
  invariant s → joined (main_pc s) →
  if decide (t < 5) then adjacent_pair t (inserted s) else t ∉ (inserted s).*1.
Proof.
  intros Hinv Hj. pose proof (inv_contribution s Hinv t) as Hc.
  rewrite (joined_all_finished s t Hinv Hj) in Hc. by case_decide.
Qed.

Lemma simulateMarketData_step_main_pc t drawn s s' :
  simulateMarketData_step t drawn s = Some s' → main_pc s' = main_pc s.
Proof.
  unfold simulateMarketData_step. destruct (threads s !! t) as [w|]; [|done]. cbn.
  destruct w; try destruct (mtx s); intros; by simplify_eq.
Qed.

(** *** The collector at the join barrier *)

(** C1: in every reachable state where the driver has joined all workers
    and not yet called [processAll], the collector holds exactly ten
    elements: they are exactly the logged insertions, each of the workers
    0..4 made exactly two of them, and nobody else made any. *)
Theorem collector_holds_ten_after_join P s :
  reachable P s → main_pc s = Consuming →
  length (marketDataList (processor s)) = 10 ∧
  marketDataList (processor s) = (inserted s).*2 ∧
  (∀ t, t < 5 → length (filter (λ e, e.1 = t) (inserted s)) = 2) ∧
  (∀ t, 5 ≤ t → t ∉ (inserted s).*1).
Proof.
  intros Hinv%reachable_invariant Hpc.
  assert (joined (main_pc s)) as Hj by by rewrite Hpc.
  assert (∀ t, t < 5 → length (filter (λ e, e.1 = t) (inserted s)) = 2) as Htwo.
  { intros t Ht. apply adjacent_pair_count.
    pose proof (joined_contribution s t Hinv Hj) as Hc. by rewrite decide_True in Hc. }
  assert (∀ t, 5 ≤ t → t ∉ (inserted s).*1) as Hnone.
  { intros t Ht. pose proof (joined_contribution s t Hinv Hj) as Hc.
    by rewrite decide_False in Hc by lia. }
  assert ((inserted s).*2 = marketDataList (processor s)) as Hlog.
  { apply (inv_log s Hinv). by rewrite Hpc. }
  split_and!; [|done..].
  rewrite <-Hlog, length_fmap, log_length_by_owner.
  - rewrite !Htwo by lia. done.
  - intros e He. destruct (decide (e.1 < 5)) as [|Hge]; [done|].
    destruct (Hnone e.1); [lia|]. by apply list_elem_of_fmap_2.
Qed.

Lemma collector_holds_ten_after_join_witness :
  let s := contended_final in
  length (marketDataList (processor s)) = 10 ∧
  marketDataList (processor s) = (inserted s).*2 ∧
  (∀ t, t < 5 → length (filter (λ e, e.1 = t) (inserted s)) = 2) ∧
  (∀ t, 5 ≤ t → t ∉ (inserted s).*1).
Proof.
  apply (collector_holds_ten_after_join MarketData_process contended_final).
  - apply (run_reachable _ contended_schedule). vm_compute. reflexivity.
  - reflexivity.
Defined.

(** C2: at the join barrier the collector is, element for element, the
    sequence of logged [push_back]s, and every worker's two elements sit at
    two consecutive positions [i] and [i+1] of it; the worker owns no other
    position, so no other worker's element lies between them. *)
Theorem worker_pair_is_contiguous P s t :
  reachable P s → main_pc s = Consuming → t < 5 →
  marketDataList (processor s) = (inserted s).*2 ∧
  ∃ i first second,
    inserted s !! i = Some (t, first) ∧
    inserted s !! S i = Some (t, second) ∧
    marketDataList (processor s) !! i = Some first ∧
    marketDataList (processor s) !! S i = Some second ∧
    ∀ j, inserted_by s j = Some t ↔ j = i ∨ j = S i.
Proof.
  intros Hinv%reachable_invariant Hpc Ht.
  assert (joined (main_pc s)) as Hj by by rewrite Hpc.
  assert ((inserted s).*2 = marketDataList (processor s)) as Hlog
    by (apply (inv_log s Hinv); by rewrite Hpc).
  split; [done|].
  pose proof (joined_contribution s t Hinv Hj) as Hc. rewrite decide_True in Hc by done.
  apply adjacent_pair_positions in Hc as (i & b & r & Hi & HSi & Honly).
  exists i, (BondMarketData b), (InterestRateMarketData r).
  rewrite <-Hlog, !list_lookup_fmap, Hi, HSi. split_and!; try done.
  intros j. unfold inserted_by. rewrite list_lookup_fmap. split.
  - destruct (inserted s !! j) as [[t' data]|] eqn:Hjlog; [|done].
    cbn. intros [= ->]. by eapply Honly.
  - intros [->| ->]; [by rewrite Hi|by rewrite HSi].
Qed.

Lemma worker_pair_is_contiguous_witness :
  let s := contended_final in
  marketDataList (processor s) = (inserted s).*2 ∧
  ∃ i first second,
    inserted s !! i = Some (0, first) ∧
    inserted s !! S i = Some (0, second) ∧
    marketDataList (processor s) !! i = Some first ∧
    marketDataList (processor s) !! S i = Some second ∧
    ∀ j, inserted_by s j = Some 0 ↔ j = i ∨ j = S i.
Proof.
  apply (worker_pair_is_contiguous MarketData_process contended_final 0).
  - apply (run_reachable _ contended_schedule). vm_compute. reflexivity.
  - reflexivity.
  - lia.
Defined.

(** C10: at the join barrier the collector is, element for element, the
    sequence of logged [push_back]s, and the two elements of a worker are
    its bond at some position [i] and its interest rate at position [i+1]:
    the bond comes first and the rate follows it directly. *)
Theorem bond_precedes_rate P s t :
  reachable P s → main_pc s = Consuming → t < 5 →
  marketDataList (processor s) = (inserted s).*2 ∧
  ∃ i b r,
    inserted s !! i = Some (t, BondMarketData b) ∧
    inserted s !! S i = Some (t, InterestRateMarketData r) ∧
    marketDataList (processor s) !! i = Some (BondMarketData b) ∧
    marketDataList (processor s) !! S i = Some (InterestRateMarketData r) ∧
    ∀ j data, inserted s !! j = Some (t, data) → j = i ∨ j = S i.
Proof.
  intros Hinv%reachable_invariant Hpc Ht.
  assert (joined (main_pc s)) as Hj by by rewrite Hpc.
  assert ((inserted s).*2 = marketDataList (processor s)) as Hlog
    by (apply (inv_log s Hinv); by rewrite Hpc).
  split; [done|].
  pose proof (joined_contribution s t Hinv Hj) as Hc. rewrite decide_True in Hc by done.
  apply adjacent_pair_positions in Hc as (i & b & r & Hi & HSi & Honly).
  exists i, b, r.
  rewrite <-Hlog, !list_lookup_fmap, Hi, HSi. by split_and!.
Qed.

Lemma bond_precedes_rate_witness :
  let s := contended_final in
  marketDataList (processor s) = (inserted s).*2 ∧
  ∃ i b r,
    inserted s !! i = Some (4, BondMarketData b) ∧
    inserted s !! S i = Some (4, InterestRateMarketData r) ∧
    marketDataList (processor s) !! i = Some (BondMarketData b) ∧
    marketDataList (processor s) !! S i = Some (InterestRateMarketData r) ∧
    ∀ j data, inserted s !! j = Some (4, data) → j = i ∨ j = S i.
Proof.
  apply (bond_precedes_rate MarketData_process contended_final 4).
  - apply (run_reachable _ contended_schedule). vm_compute. reflexivity.
  - reflexivity.
  - lia.
Defined.

(** *** Growth of the collector *)

Lemma step_joined P s s' : step P s s' → joined (main_pc s) → joined (main_pc s').
Proof.
  intros [[|t drawn] Ha]; cbn in Ha.
  - unfold main_step in Ha. destruct (main_pc s); try done.
    destruct (processAll _) as [[p evs] [e|]]; by simplify_eq.
  - by rewrite (simulateMarketData_step_main_pc _ _ _ _ Ha).
Qed.

(** One step of the repository's program appends at most one element at
    the end of the collector, and none once the workers are joined. *)
Lemma step_collector s s' :
  invariant s → step MarketData_process s s' →
  (marketDataList (processor s') = marketDataList (processor s) ∨
   ∃ data, marketDataList (processor s') = marketDataList (processor s) ++ [data]) ∧
  (joined (main_pc s) →
   marketDataList (processor s') = marketDataList (processor s)).
Proof.
  intros Hinv [[|t drawn] Ha]; cbn in Ha.
  - unfold main_step in Ha. rewrite processAll_MarketData in Ha.
    destruct (main_pc s); [case_decide|destruct (threads s !! j) as [[]|]|..];
      simplify_eq; cbn; auto.
  - unfold simulateMarketData_step in Ha.
    destruct (threads s !! t) as [w|] eqn:Ht; [|done]. cbn in Ha.
    assert (joined (main_pc s) → w = Finished) as Hfin.
    { intros Hj. rewrite (joined_all_finished s t Hinv Hj) in Ht.
      case_decide; congruence. }
    destruct w; try destruct (mtx s); simplify_eq; cbn; eauto.
    all: split; [eauto|]; intros Hj; by specialize (Hfin Hj).
Qed.

Lemma rtc_collector s :
  reachable MarketData_process s →
  ∀ s', rtc (step MarketData_process) s s' →
    reachable MarketData_process s' ∧
    marketDataList (processor s) `prefix_of` marketDataList (processor s') ∧
    (joined (main_pc s) →
     joined (main_pc s') ∧
     marketDataList (processor s') = marketDataList (processor s)).
Proof.
  intros Hs. apply rtc_ind_r; [done|].
  intros s1 s2 _ Hstep (Hs1 & Hpre & Heq).
  destruct (step_collector s1 s2 (reachable_invariant _ _ Hs1) Hstep) as [Hgrow Hsame].
  split_and!.
  - by eapply rtc_r.
  - destruct Hgrow as [-> | [data ->]]; [done|]. by apply prefix_app_r.
  - intros [Hj1 Hl1]%Heq. split; [by eapply step_joined|].
    by rewrite Hsame.
Qed.

Lemma step_fn_appended s a s' :
  step_fn MarketData_process a s = Some s' →
  processor s' = foldl addData (processor s) (appended s a).
Proof.
  destruct a as [|t drawn]; cbn [step_fn appended].
  - unfold main_step. rewrite processAll_MarketData.
    destruct (main_pc s); [case_decide|destruct (threads s !! j) as [[]|]|..];
      intros; by simplify_eq.
  - unfold simulateMarketData_step.
    destruct (threads s !! t) as [w|]; [|done]. cbn.
    destruct w; try destruct (mtx s); intros; by simplify_eq.
Qed.

(** C7: [addData] yields the old sequence with the new element appended
    at the end. Along every continuation of a run of the program the
    collector only gains elements at its end (the earlier contents stay a
    prefix, so nothing is removed or reordered); from the join barrier on
    the sequence does not change any more; and a single step changes the
    collector by exactly the [addData] calls of the statement it runs, one
    at lines 74 and 75 of a worker and none anywhere else. *)
Theorem collector_only_grows s s' :
  reachable MarketData_process s → rtc (step MarketData_process) s s' →
  (∀ (p : DataProcessor MarketData) data,
     marketDataList (addData p data) = marketDataList p ++ [data]) ∧
  marketDataList (processor s) `prefix_of` marketDataList (processor s') ∧
  (joined (main_pc s) →
   marketDataList (processor s') = marketDataList (processor s)) ∧
  (∀ a, step_fn MarketData_process a s = Some s' →
        processor s' = foldl addData (processor s) (appended s a) ∧
        marketDataList (processor s')
        = marketDataList (processor s) ++ appended s a).
Proof.
  intros Hs Hrun. destruct (rtc_collector s Hs s' Hrun) as (_ & Hpre & Heq).
  split_and!; [done|done|by intros [_ ?]%Heq|].
  intros a Ha. pose proof (step_fn_appended s a s' Ha) as Hp.
  split; [done|]. by rewrite Hp, marketDataList_foldl_addData.
Qed.

Lemma collector_only_grows_witness :
  marketDataList (processor contended_midway) = [BondMarketData 1; InterestRateMarketData 100;
                                                 BondMarketData 10.5] ∧
  marketDataList (processor contended_midway_next)
  = marketDataList (processor contended_midway) ++ [InterestRateMarketData 1.25] ∧
  marketDataList (processor contended_midway)
    `prefix_of` marketDataList (processor contended_final) ∧
  marketDataList (processor contended_exited) = marketDataList (processor contended_final).
Proof.
  assert (reachable MarketData_process contended_midway) as Hmid.
  { apply (run_reachable _ (take 22 contended_schedule)). vm_compute. reflexivity. }
  assert (reachable MarketData_process contended_final) as Hfin.
  { apply (run_reachable _ contended_schedule). vm_compute. reflexivity. }
  split; [reflexivity|]. split_and!.
  - refine (proj2 (proj2 (proj2 (proj2
      (collector_only_grows contended_midway contended_midway_next Hmid _)))
      (Work 0 0) _)).
    + apply (run_steps _ [Work 0 0]). vm_compute. reflexivity.
    + vm_compute. reflexivity.
  - refine (proj1 (proj2
      (collector_only_grows contended_midway contended_final Hmid _))).
    apply (run_steps _ (drop 22 contended_schedule)). vm_compute. reflexivity.
  - refine (proj1 (proj2 (proj2
      (collector_only_grows contended_final contended_exited Hfin _))) _).
    + apply (run_steps _ [Main]). vm_compute. reflexivity.
    + exact I.
Defined.

(** *** The exit code *)

(** C9: whenever [main] has returned, it has returned 0, whatever the
    elements did while they were processed. *)
Theorem exit_code_is_zero P s code :
  reachable P s → main_pc s = Exited code → code = 0%Z.
Proof.
  unfold reachable. intros Hs. revert code. revert s Hs.
  apply (rtc_ind_r (λ s, ∀ code, main_pc s = Exited code → code = 0%Z)); [done|].
  intros s s' _ [[|t drawn] Ha] IH code Hcode; cbn in Ha.
  - unfold main_step in Ha.
    destruct (main_pc s); [case_decide|destruct (threads s !! j) as [[]|]|..];
      simplify_eq; cbn in *; try done.
    destruct (escaped _); simplify_eq; cbn in *; congruence.
  - rewrite (simulateMarketData_step_main_pc _ _ _ _ Ha) in Hcode. by apply IH.
Qed.

(** Once the workers are joined, [processAll] returns whenever the handler
    matches every exception, and [main] then returns 0. *)
Lemma consumption_exits_zero P s :
  main_pc s = Consuming →
  Forall (λ x, ¬ uncaught (process_T := P) x) (marketDataList (processor s)) →
  ∃ s', step_fn P Main s = Some s' ∧ main_pc s' = Exited 0.
Proof.
  intros Hpc Hcaught. cbn. unfold main_step, processAll. rewrite Hpc.
  rewrite (processAll_from_caught _ Hcaught). cbn. eauto.
Qed.

Lemma exit_code_is_zero_witness :
  output cerr (trace failing_final) ≠ [] ∧
  ∃ code, main_pc failing_final = Exited code ∧ code = 0%Z.
Proof.
  split; [done|]. eexists. split; [reflexivity|].
  apply (exit_code_is_zero failing_bonds failing_final).
  - apply (run_reachable _ (contended_schedule ++ [Main])). vm_compute. reflexivity.
  - reflexivity.
Defined.

(** *** No deadlock, and every run is finite *)

Example sequential_run :
  (λ s, (main_pc s, mtx s, inserted_by s <$> seq 0 10))
    <$> run MarketData_process sequential_schedule initial
  = Some (Consuming, None,
          [Some 0; Some 0; Some 1; Some 1; Some 2; Some 2; Some 3; Some 3; Some 4; Some 4]).
Proof. reflexivity. Qed.

Example contended_run :
  inserted_by contended_final <$> seq 0 10
  = [Some 3; Some 3; Some 0; Some 0; Some 4; Some 4; Some 1; Some 1; Some 2; Some 2].
Proof. reflexivity. Qed.

(** As long as [main] has not ended, some thread can move: the driver
    itself, or the worker it waits for, or the worker that holds the mutex. *)
Lemma progress P s :
  invariant s → before_consumption (main_pc s) → ∃ s', step P s s'.
Proof.
  intros Hinv Hpc. unfold step.
  assert (∀ t w, threads s !! t = Some w → w ≠ Finished →
                 (mtx s = None ∨ in_critical_section w) →
                 ∃ s', step_fn P (Work t 0) s = Some s') as Hwork.
  { intros t w Ht Hw Hfree. cbn. unfold simulateMarketData_step. rewrite Ht. cbn.
    destruct w; try done; eauto.
    destruct Hfree as [-> | []]. eauto. }
  assert (is_Some (main_step P s) → ∃ s', ∃ a, step_fn P a s = Some s') as Hmain_step.
  { intros [s' Hs']. by exists s', Main. }
  destruct (main_pc s) as [i|j| | |] eqn:Hmain; try done.
  - apply Hmain_step. unfold main_step. rewrite Hmain. by case_decide.
  - destruct (threads s !! j) as [w|] eqn:Hj.
    + assert (w = Finished ∨ w ≠ Finished) as [->|Hw]
        by (destruct w; (by left) || (by right)).
      { apply Hmain_step. unfold main_step. by rewrite Hmain, Hj. }
      destruct (mtx s) as [t|] eqn:Hmtx.
      * destruct (inv_holder s Hinv t Hmtx) as (w' & Ht & Hcs).
        destruct (Hwork t w' Ht) as [s' Hs']; [by destruct w'|by right|].
        by exists s', (Work t 0).
      * destruct (Hwork j w Hj Hw) as [s' Hs']; [by left|].
        by exists s', (Work j 0).
    + apply Hmain_step. unfold main_step. by rewrite Hmain, Hj.
  - apply Hmain_step. unfold main_step. rewrite Hmain.
    by destruct (processAll _) as [[p evs] esc].
Qed.

Lemma worker_fuel_update (ths : list worker) t w w' :
  ths !! t = Some w →
  sum_list_with worker_fuel (<[t := w']> ths) + worker_fuel w
  = sum_list_with worker_fuel ths + worker_fuel w'.
Proof.
  revert t. induction ths as [|w0 ths IH]; intros [|t] Ht; simplify_eq/=.
  - lia.
  - specialize (IH t Ht). lia.
Qed.

(** Every step uses up fuel. *)
Lemma step_fuel P s s' : invariant s → step P s s' → fuel s' < fuel s.
Proof.
  intros Hinv [[|t drawn] Ha]; unfold fuel; cbn in Ha.
  - pose proof (inv_driver s Hinv) as Hd. unfold main_step in Ha.
    destruct (main_pc s) as [i|j| | |]; cbn in Hd; try done.
    + case_decide; simplify_eq; cbn; [|lia].
      rewrite sum_list_with_app. cbn. lia.
    + destruct Hd as [Hlen _].
      destruct (threads s !! j) as [w|] eqn:Hj; [destruct w|]; simplify_eq; cbn; [|lia].
      apply lookup_lt_Some in Hj. lia.
    + destruct (processAll _) as [[p evs] esc]. simplify_eq. cbn.
      destruct esc; cbn; lia.
  - rewrite (simulateMarketData_step_main_pc _ _ _ _ Ha).
    unfold simulateMarketData_step in Ha.
    destruct (threads s !! t) as [w|] eqn:Ht; [|done]. cbn in Ha.
    destruct w; try destruct (mtx s); simplify_eq; cbn;
    match goal with
    | |- context [<[t := ?w']> _] =>
        pose proof (worker_fuel_update (threads s) t _ w' Ht) as Hsum
    end; cbn in Hsum; lia.
Qed.

(** A run from the start is at most 43 steps long. *)
Lemma run_bounded P sched s s' :
  invariant s → run P sched s = Some s' → length sched + fuel s' ≤ fuel s.
Proof.
  revert s. induction sched as [|a sched IH]; intros s Hinv Hrun; cbn in Hrun.
  - simplify_eq. cbn. lia.
  - destruct (step_fn P a s) as [s1|] eqn:Ha; [|done]. cbn in Hrun.
    assert (step P s s1) as Hstep by by exists a.
    pose proof (step_fuel P s s1 Hinv Hstep).
    pose proof (IH s1 (step_invariant P s s1 Hinv Hstep) Hrun). cbn. lia.
Qed.

Lemma run_at_most_43_steps P sched s :
  run P sched initial = Some s → length sched ≤ 43.
Proof.
  intros Hrun. pose proof (run_bounded P sched initial s invariant_initial Hrun) as H.
  change (fuel initial) with 43 in H. lia.
Qed.

(** ** Part 5: further properties *)

(** *** The mutex *)

(** X1: while one worker is inside the [lock_guard] scope, no other
    worker is. *)
Theorem mutual_exclusion P s t t' w w' :
  reachable P s →
  threads s !! t = Some w → in_critical_section w →
  threads s !! t' = Some w' → t ≠ t' →
  ¬ in_critical_section w'.
Proof.
  intros Hinv%reachable_invariant Ht Hw Ht' Hne Hw'. apply Hne.
  eapply critical_section_exclusive; [apply (inv_mutex s Hinv)|done..].
Qed.

Lemma mutual_exclusion_witness :
  ¬ in_critical_section
      (AtLock (BondMarketData 99) (InterestRateMarketData 2)).
Proof.
  apply (mutual_exclusion MarketData_process contended_midway 0 1
           (AtAddRate (InterestRateMarketData 1.25))).
  - apply (run_reachable _ (take 22 contended_schedule)). vm_compute. reflexivity.
  - reflexivity.
  - exact I.
  - reflexivity.
  - lia.
Defined.

(** X2: the mutex is held by worker [t] exactly while [t] is inside the
    [lock_guard] scope (lines 74 to 76): not while it draws its random
    values, not while it waits, not after it has finished. *)
Theorem mutex_held_exactly_in_scope P s t w :
  reachable P s → threads s !! t = Some w →
  (mtx s = Some t ↔ in_critical_section w).
Proof.
  intros Hinv%reachable_invariant Ht. split.
  - intros (w' & Ht' & Hcs)%(inv_holder s Hinv). congruence.
  - by apply (inv_mutex s Hinv).
Qed.

Lemma mutex_held_exactly_in_scope_witness :
  (mtx contended_midway = Some 0 ↔
   in_critical_section (AtAddRate (InterestRateMarketData 1.25))) ∧
  (mtx contended_midway = Some 3 ↔ in_critical_section Finished).
Proof.
  split.
  - apply (mutex_held_exactly_in_scope MarketData_process contended_midway 0).
    + apply (run_reachable _ (take 22 contended_schedule)). vm_compute. reflexivity.
    + reflexivity.
  - apply (mutex_held_exactly_in_scope MarketData_process contended_midway 3).
    + apply (run_reachable _ (take 22 contended_schedule)). vm_compute. reflexivity.
    + reflexivity.
Defined.

(** X3: a worker step changes the collector only by one [addData], and
    only while that worker holds the mutex, before and after the step. *)
Theorem collector_written_under_lock P s s' t drawn :
  reachable P s → simulateMarketData_step t drawn s = Some s' →
  processor s' ≠ processor s →
  mtx s = Some t ∧ mtx s' = Some t ∧
  ∃ data, processor s' = addData (processor s) data.
Proof.
  intros Hinv%reachable_invariant Hstep Hne.
  unfold simulateMarketData_step in Hstep.
  destruct (threads s !! t) as [w|] eqn:Ht; [|done]. cbn in Hstep.
  pose proof (inv_mutex s Hinv t w Ht) as Hm.
  destruct w; try destruct (mtx s) eqn:Hmtx; simplify_eq; cbn in *;
    try done; rewrite Hm by done; eauto.
Qed.

Lemma collector_written_under_lock_witness :
  ∃ s', simulateMarketData_step 0 0 contended_midway = Some s' ∧
        mtx contended_midway = Some 0 ∧ mtx s' = Some 0 ∧
        ∃ data, processor s' = addData (processor contended_midway) data.
Proof.
  eexists. split; [reflexivity|].
  apply (collector_written_under_lock MarketData_process contended_midway _ 0 0).
  - apply (run_reachable _ (take 22 contended_schedule)). vm_compute. reflexivity.
  - reflexivity.
  - intros [=].
Defined.

(** *** The spawn loop and the join barrier *)

(** X4: [main] never has more than five workers; the join loop and all
    that follows run with exactly five. *)
Theorem at_most_five_workers P s :
  reachable P s →
  length (threads s) ≤ 5 ∧
  (match main_pc s with
   | Spawning i => length (threads s) = i
   | _ => length (threads s) = 5
   end).
Proof.
  intros Hinv%reachable_invariant. pose proof (inv_driver s Hinv) as Hd.
  destruct (main_pc s); cbn in Hd; destruct Hd as [Hlen ?]; split; try done; lia.
Qed.

Lemma at_most_five_workers_witness :
  length (threads contended_midway) ≤ 5 ∧
  (match main_pc contended_midway with
   | Spawning i => length (threads contended_midway) = i
   | _ => length (threads contended_midway) = 5
   end).
Proof.
  apply (at_most_five_workers MarketData_process contended_midway).
  apply (run_reachable _ (take 22 contended_schedule)). vm_compute. reflexivity.
Defined.

Lemma joined_threads s :
  invariant s → joined (main_pc s) → threads s = replicate 5 Finished.
Proof.
  intros Hinv Hj. apply list_eq. intros t.
  rewrite (joined_all_finished s t Hinv Hj). case_decide.
  - symmetry. by apply lookup_replicate_2.
  - symmetry. apply lookup_ge_None. rewrite length_replicate. lia.
Qed.

Lemma joined_no_worker_step s t drawn :
  invariant s → joined (main_pc s) → simulateMarketData_step t drawn s = None.
Proof.
  intros Hinv Hj. unfold simulateMarketData_step.
  rewrite (joined_all_finished s t Hinv Hj). by case_decide.
Qed.

(** X5: once [main] is past the join loop, every worker has finished and
    the mutex is free: [processAll] never runs beside a worker. *)
Theorem join_barrier P s :
  reachable P s → joined (main_pc s) →
  mtx s = None ∧ threads s = replicate 5 Finished ∧
  ∀ t drawn, simulateMarketData_step t drawn s = None.
Proof.
  intros Hinv%reachable_invariant Hj.
  pose proof (joined_threads s Hinv Hj) as Hths.
  split_and!; [|done|intros; by apply joined_no_worker_step].
  destruct (mtx s) as [t|] eqn:Hm; [|done].
  destruct (inv_holder s Hinv t Hm) as (w & Ht & Hcs).
  rewrite Hths in Ht. apply lookup_replicate in Ht as [-> _]. done.
Qed.

Lemma join_barrier_witness :
  mtx contended_final = None ∧ threads contended_final = replicate 5 Finished ∧
  ∀ t drawn, simulateMarketData_step t drawn contended_final = None.
Proof.
  apply (join_barrier MarketData_process contended_final).
  - apply (run_reachable _ contended_schedule). vm_compute. reflexivity.
  - exact I.
Defined.

(** *** Termination *)

(** X6: no deadlock. As long as [main] has neither returned nor been
    terminated, some thread can take a step. *)
Theorem no_deadlock P s :
  reachable P s → before_consumption (main_pc s) → red (step P) s.
Proof. intros Hinv%reachable_invariant Hpc. by apply progress. Qed.

Lemma no_deadlock_witness : red (step MarketData_process) contended_midway.
Proof.
  apply (no_deadlock MarketData_process contended_midway).
  - apply (run_reachable _ (take 22 contended_schedule)). vm_compute. reflexivity.
  - exact I.
Defined.

Lemma fuel_sn P n s : invariant s → fuel s < n → sn (step P) s.
Proof.
  revert s. induction n as [|n IH]; intros s Hinv Hn; [lia|].
  constructor. intros s' Hstep. unfold flip in Hstep.
  apply IH; [by eapply step_invariant|].
  pose proof (step_fuel P s s' Hinv Hstep). lia.
Qed.

(** X7: every run is finite. From a reachable state no infinite sequence
    of steps exists, whatever the scheduling and the draws: the two loops
    of [main] are bounded and a worker runs straight-line code. *)
Theorem every_run_is_finite P s : reachable P s → sn (step P) s.
Proof.
  intros Hinv%reachable_invariant. by apply (fuel_sn P (S (fuel s))); [|lia].
Qed.

Lemma every_run_is_finite_witness : sn (step MarketData_process) contended_midway.
Proof.
  apply (every_run_is_finite MarketData_process contended_midway).
  apply (run_reachable _ (take 22 contended_schedule)). vm_compute. reflexivity.
Defined.

(** *** From the join barrier to [return 0] *)

Lemma simulateMarketData_step_trace t drawn s s' :
  simulateMarketData_step t drawn s = Some s' → trace s' = trace s.
Proof.
  unfold simulateMarketData_step. destruct (threads s !! t) as [w|]; [|done]. cbn.
  destruct w; try destruct (mtx s); intros; by simplify_eq.
Qed.

Lemma output_ok_step s s' :
  invariant s → output_ok s → step MarketData_process s s' → output_ok s'.
Proof.
  intros Hinv Hok [[|t drawn] Ha]; cbn in Ha; unfold output_ok in *.
  - unfold main_step in Ha. rewrite processAll_MarketData in Ha.
    pose proof (inv_log s Hinv) as Hlog.
    destruct (main_pc s); [case_decide|destruct (threads s !! j) as [[]|]|..];
      simplify_eq; cbn in *; try done.
    rewrite Hok. split_and!; [done|done|by apply Hlog].
  - rewrite (simulateMarketData_step_main_pc _ _ _ _ Ha),
            (simulateMarketData_step_trace _ _ _ _ Ha).
    destruct (main_pc s) eqn:Hpc; try done.
    rewrite joined_no_worker_step in Ha; [done|done|by rewrite Hpc].
Qed.

Lemma reachable_output_ok s : reachable MarketData_process s → output_ok s.
Proof.
  intros Hs. cut (invariant s ∧ output_ok s); [by intros [_ ?]|].
  revert s Hs. apply rtc_ind_r.
  - split; [apply invariant_initial|done].
  - intros s s' _ Hstep [Hinv Hok].
    split; [by eapply step_invariant|by eapply output_ok_step].
Qed.



(** *** The collector is a sequence of whole pairs *)

Lemma pairs_snoc ps t b r :
  pairs ps ++ [(t, BondMarketData b)] ++ [(t, InterestRateMarketData r)]
  = pairs (ps ++ [(t, b, r)]).
Proof. unfold pairs. rewrite bind_app. done. Qed.

Lemma length_pairs ps : length (pairs ps) = 2 * length ps.
Proof.
  induction ps as [|e ps IH]; [done|].
  unfold pairs in *. rewrite bind_cons, length_app, IH. cbn. lia.
Qed.

Lemma half_done_update ths m t w w' :
  ths !! t = Some w → m ≠ Some t →
  half_done (<[t := w']> ths) m = half_done ths m.
Proof.
  intros Ht Hm. destruct m as [h|]; [|done]. cbn.
  rewrite (lookup_thread_update _ _ _ _ _ Ht). case_decide; congruence.
Qed.

Lemma log_shape_initial : log_shape (threads initial) (mtx initial) (inserted initial).
Proof. by exists []. Qed.

Lemma log_shape_step P s s' :
  invariant s → log_shape (threads s) (mtx s) (inserted s) → step P s s' →
  log_shape (threads s') (mtx s') (inserted s').
Proof.
  intros Hinv Hshape [[|t drawn] Ha]; cbn in Ha.
  - (* the driver touches neither the mutex nor the log *)
    unfold main_step in Ha.
    destruct (main_pc s); [case_decide|destruct (threads s !! j) as [[]|]|
                           destruct (processAll _) as [[p evs] esc]|..];
      simplify_eq; cbn; try done.
    unfold log_shape, half_done in *.
    destruct (mtx s) as [h|] eqn:Hm; [|done]. cbn in *.
    destruct (inv_holder s Hinv h Hm) as (w & Hh & _).
    by rewrite (lookup_app_l_Some _ _ _ _ Hh), Hh in *.
  - unfold simulateMarketData_step in Ha.
    destruct (threads s !! t) as [w|] eqn:Ht; [|done]. cbn in Ha.
    pose proof (inv_mutex s Hinv t w Ht) as Hm.
    pose proof (inv_locals s Hinv t w Ht) as Hl.
    assert (¬ in_critical_section w → mtx s ≠ Some t) as Hfree.
    { intros Hw (w' & Ht' & Hcs)%(inv_holder s Hinv). congruence. }
    unfold log_shape in *.
    destruct w; cbn in Ha, Hl, Hm, Hfree;
      try (destruct (mtx s) eqn:Hmtx; [done|]); simplify_eq;
      cbn [threads mtx inserted].
    + by rewrite (half_done_update _ _ _ _ _ Ht) by auto.
    + by rewrite (half_done_update _ _ _ _ _ Ht) by auto.
    + unfold half_done in *. cbn in *.
      by rewrite list_lookup_insert_eq by by eapply lookup_lt_Some.
    + rewrite Hm in * by done. unfold half_done in *. cbn in *.
      rewrite Ht in Hshape.
      rewrite list_lookup_insert_eq by by eapply lookup_lt_Some.
      destruct Hshape as [ps ->]. destruct Hl as [[b ->]%is_bond_inv _].
      by exists ps, b.
    + rewrite Hm in * by done. unfold half_done in *. cbn in *.
      rewrite Ht in Hshape.
      rewrite list_lookup_insert_eq by by eapply lookup_lt_Some.
      destruct Hshape as (ps & b & ->). apply is_rate_inv in Hl as [r ->].
      exists (ps ++ [(t, b, r)]). by rewrite <-app_assoc, pairs_snoc.
    + rewrite Hm in * by done. unfold half_done in *. cbn in *.
      by rewrite Ht in Hshape.
Qed.

Lemma reachable_log_shape P s :
  reachable P s → log_shape (threads s) (mtx s) (inserted s).
Proof.
  intros Hs. cut (invariant s ∧ log_shape (threads s) (mtx s) (inserted s));
    [by intros [_ ?]|].
  revert s Hs. apply rtc_ind_r.
  - split; [apply invariant_initial|apply log_shape_initial].
  - intros s s' _ Hstep [Hinv Hshape].
    split; [by eapply step_invariant|by eapply log_shape_step].
Qed.

Lemma joined_log_length s :
  invariant s → joined (main_pc s) → length (inserted s) = 10.
Proof.
  intros Hinv Hj. rewrite log_length_by_owner.
  - assert (∀ t, t < 5 → length (filter (λ e, e.1 = t) (inserted s)) = 2) as Htwo.
    { intros t Ht. apply adjacent_pair_count.
      pose proof (joined_contribution s t Hinv Hj) as Hc.
      by rewrite decide_True in Hc. }
    rewrite !Htwo by lia. done.
  - intros e He. destruct (decide (e.1 < 5)) as [|Hge]; [done|].
    pose proof (joined_contribution s e.1 Hinv Hj) as Hc.
    rewrite decide_False in Hc by done. destruct Hc. by apply list_elem_of_fmap_2.
Qed.

Lemma joined_pairs P s :
  reachable P s → joined (main_pc s) →
  ∃ ps, length ps = 5 ∧ inserted s = pairs ps.
Proof.
  intros Hs Hj. pose proof (reachable_invariant P s Hs) as Hinv.
  pose proof (reachable_log_shape P s Hs) as Hshape.
  unfold log_shape, half_done in Hshape.
  destruct (mtx s) as [h|]; cbn in Hshape.
  { rewrite (joined_all_finished s h Hinv Hj) in Hshape. case_decide.
    all: destruct Hshape as [ps Hps]; exists ps; split; [|done].
    all: pose proof (joined_log_length s Hinv Hj) as Hlen.
    all: rewrite Hps, length_pairs in Hlen; lia. }
  destruct Hshape as [ps Hps]. exists ps. split; [|done].
  pose proof (joined_log_length s Hinv Hj) as Hlen.
  rewrite Hps, length_pairs in Hlen. lia.
Qed.

(** X9: when the workers are joined the collector is five whole pairs,
    one after the other: a bond at every even position and, right after
    it, the interest rate of the same worker. *)
Theorem collector_is_five_pairs P s :
  reachable P s → main_pc s = Consuming →
  ∃ ps, length ps = 5 ∧
        inserted s = pairs ps ∧
        marketDataList (processor s)
        = ps ≫= (λ e, [BondMarketData e.1.2; InterestRateMarketData e.2]).
Proof.
  intros Hs Hpc.
  destruct (joined_pairs P s Hs) as (ps & Hlen & Hps); [by rewrite Hpc|].
  exists ps. split_and!; [done..|].
  rewrite <-(inv_log s (reachable_invariant P s Hs)) by by rewrite Hpc.
  rewrite Hps. clear. induction ps as [|e ps IH]; [done|].
  unfold pairs in *. rewrite !bind_cons, fmap_app, IH. done.
Qed.

Lemma collector_is_five_pairs_witness :
  let s := contended_final in
  ∃ ps, length ps = 5 ∧
        inserted s = pairs ps ∧
        marketDataList (processor s)
        = ps ≫= (λ e, [BondMarketData e.1.2; InterestRateMarketData e.2]).
Proof.
  apply (collector_is_five_pairs MarketData_process contended_final).
  - apply (run_reachable _ contended_schedule). vm_compute. reflexivity.
  - reflexivity.
Defined.

(** *** What the program prints *)

Lemma pairs_lines ps :
  (pairs ps).*2 ≫= documented_line = ps ≫= pair_lines.
Proof.
  induction ps as [|e ps IH]; [done|].
  unfold pairs in *. rewrite !bind_cons, fmap_app, bind_app, IH. done.
Qed.

Lemma length_pair_lines ps : length (ps ≫= pair_lines) = 6 * length ps.
Proof.
  induction ps as [|e ps IH]; [done|].
  rewrite bind_cons, length_app, IH. cbn. lia.
Qed.

(** X10: when [main] has returned, standard output holds exactly ten
    lines, a bond line followed by the interest-rate line of the same
    worker, five times, in the order of the collector; standard error is
    empty. *)
Theorem program_prints_five_pairs_of_lines s code :
  reachable MarketData_process s → main_pc s = Exited code →
  ∃ ps, length ps = 5 ∧
        inserted s = pairs ps ∧
        output cout (trace s) = ps ≫= pair_lines ∧
        line_count (output cout (trace s)) = 10 ∧
        output cerr (trace s) = [].
Proof.
  intros Hs Hpc. pose proof (reachable_output_ok s Hs) as Hok.
  unfold output_ok in Hok. rewrite Hpc in Hok. destruct Hok as (_ & Htr & Hlog).
  destruct (joined_pairs _ s Hs) as (ps & Hlen & Hps); [by rewrite Hpc|].
  exists ps. rewrite Htr, !output_iterations, <-Hlog, Hps, pairs_lines.
  split_and!; try done.
  do 6 (destruct ps as [|? ps]; try done).
Qed.

Lemma program_prints_five_pairs_of_lines_witness :
  let s := default initial
             (run MarketData_process (contended_schedule ++ [Main]) initial) in
  ∃ ps, length ps = 5 ∧
        inserted s = pairs ps ∧
        output cout (trace s) = ps ≫= pair_lines ∧
        line_count (output cout (trace s)) = 10 ∧
        output cerr (trace s) = [].
Proof.
  apply (program_prints_five_pairs_of_lines _ 0).
  - apply (run_reachable _ (contended_schedule ++ [Main])). vm_compute. reflexivity.
  - reflexivity.
Defined.

(** *** [processAll] on any element type *)

Section ProcessAllAnyType.
Context {T : Type} {process_T : Processable T}.
Implicit Types (l : list T) (p : DataProcessor T).







End ProcessAllAnyType.

Example probe_calls_stop_at_foreign :
  calls (processAll (mkDataProcessor [Quiet; Faulty "boom"; Foreign; Quiet])).1.2
  = [Quiet; Faulty "boom"; Foreign].
Proof. reflexivity. Qed.



Section ProcessAllComposes.
Context {T : Type} {process_T : Processable T}.


End ProcessAllComposes.


(** *** One worker on its own *)

Lemma run_cons P a sched s :
  run P (a :: sched) s = step_fn P a s ≫= run P sched.
Proof. done. Qed.

(** X14: a worker that is scheduled without interruption while the mutex
    is free appends a bond holding its first draw and then an interest
    rate holding its second draw, ends finished, and leaves the mutex free
    and everything else as it was. *)
Theorem worker_alone_appends_its_draws P s t x y :
  threads s !! t = Some AtDrawBond → mtx s = None →
  run P (whole_worker t x y) s
  = Some (State (main_pc s) (<[t := Finished]> (threads s)) None
                (addData (addData (processor s) (BondMarketData x))
                         (InterestRateMarketData y))
                (trace s)
                (inserted s ++ [(t, BondMarketData x); (t, InterestRateMarketData y)])).
Proof.
  intros Ht Hm. destruct s as [pc ths m p tr log]. cbn in Ht, Hm. subst m.
  assert (t < length ths) as Hlt by by eapply lookup_lt_Some.
  unfold whole_worker.
  do 6 (rewrite run_cons; cbn [step_fn]; unfold simulateMarketData_step;
        cbn [threads mtx main_pc processor trace inserted];
        first [rewrite Ht | rewrite list_lookup_insert_eq by by rewrite ?length_insert];
        cbn [mbind option_bind]; rewrite ?list_insert_insert_eq).
  cbn [run]. by rewrite <-app_assoc.
Qed.

Lemma worker_alone_appends_its_draws_witness :
  let s := default initial (run MarketData_process (repeat Main 6) initial) in
  run MarketData_process (whole_worker 2 57.75 3.5) s
  = Some (State (main_pc s) (<[2 := Finished]> (threads s)) None
                (addData (addData (processor s) (BondMarketData 57.75))
                         (InterestRateMarketData 3.5))
                (trace s)
                (inserted s ++ [(2, BondMarketData 57.75); (2, InterestRateMarketData 3.5)])).
Proof.
  intros s. apply (worker_alone_appends_its_draws MarketData_process s 2 57.75 3.5).
  - reflexivity.
  - reflexivity.
Defined.
